(** * A shallow embedding of the WAMP session core of wamprx.js

    The modelled code is the newest revision of [wamp.ts] (with the callee
    path), the keyed demultiplexer [divide] of [utils/rxdivide.ts], the
    subscription logger [logSubUnsub] of [utils/rxlog.ts] and the helpers
    [toWampFunc] and [wampCall] of [wamp/extras.ts].
    RxJS streams are modelled by the notifications they carry; the
    synchronous re-entrancy of RxJS subscribers (a consumer reacting inside a
    [next] callback, teardown running after the [complete]/[error] callback)
    is written out where a claim depends on it. *)

From Stdlib Require Import ZArith Ascii Sorted Numbers.DecimalString.
From stdpp Require Import base list gmap strings.

Open Scope Z_scope.
#[local] Set Warnings "-register-all".

(* ------------------------------------------------------------------ *)
(** ** JavaScript values as they travel through the session *)

(** [JUndef] is JavaScript's [undefined]: an absent optional field of a
    message array or an absent property of an object. *)
Inductive jsval : Type :=
| JUndef
| JNull
| JBool (b : bool)
| JNum (n : Z)
| JStr (s : string)
| JArr (l : list jsval)
| JObj (fs : list (string * jsval)).

(** Truthiness, as used by [!!x], [x || y] and [if (x)]. *)
Definition truthy (v : jsval) : bool :=
  match v with
  | JUndef | JNull => false
  | JBool b => b
  | JNum n => negb (Z.eqb n 0)
  | JStr s => negb (String.eqb s EmptyString)
  | JArr _ | JObj _ => true
  end.

(** Property access [o.k]; a later duplicate key wins, as with [JSON.parse].
    Property access on a non-object yields [undefined] here (the message
    types only put objects at the positions read this way). *)
Definition get_prop (o : jsval) (k : string) : jsval :=
  match o with
  | JObj fs =>
      match List.find (fun kv => String.eqb (fst kv) k) (List.rev fs) with
      | Some (_, v) => v
      | None => JUndef
      end
  | _ => JUndef
  end.

(** Array element access [a[i]]. *)
Definition get_index (a : jsval) (i : nat) : jsval :=
  match a with
  | JArr l => nth i l JUndef
  | _ => JUndef
  end.

(** Array destructuring [[x, y] = a] of an [ArgsAndDict] tuple. *)
Definition destructure2 (a : jsval) : jsval * jsval :=
  (get_index a 0, get_index a 1).

(* ------------------------------------------------------------------ *)
(** ** Frame encoding: [trimArray] and [JSON.stringify] *)

(** [trimArray]: pop the last element while it is [undefined]. *)
Fixpoint drop_undef (l : list jsval) : list jsval :=
  match l with
  | JUndef :: r => drop_undef r
  | _ => l
  end.

Definition trimArray (a : list jsval) : list jsval :=
  List.rev (drop_undef (List.rev a)).

Definition chr (n : nat) : string := String (ascii_of_nat n) EmptyString.

Definition hex_digit (n : nat) : string :=
  if Nat.ltb n 10 then chr (48 + n) else chr (87 + n).

(** String escaping of [JSON.stringify]. *)
Definition escape_char (c : ascii) : string :=
  let n := nat_of_ascii c in
  if Nat.eqb n 34 then chr 92 +:+ chr 34
  else if Nat.eqb n 92 then chr 92 +:+ chr 92
  else if Nat.eqb n 8 then chr 92 +:+ "b"
  else if Nat.eqb n 9 then chr 92 +:+ "t"
  else if Nat.eqb n 10 then chr 92 +:+ "n"
  else if Nat.eqb n 12 then chr 92 +:+ "f"
  else if Nat.eqb n 13 then chr 92 +:+ "r"
  else if Nat.ltb n 32
  then chr 92 +:+ "u00" +:+ hex_digit (Nat.div n 16) +:+ hex_digit (Nat.modulo n 16)
  else String c EmptyString.

Fixpoint escape (s : string) : string :=
  match s with
  | EmptyString => EmptyString
  | String c r => escape_char c +:+ escape r
  end.

Definition quote (s : string) : string := chr 34 +:+ escape s +:+ chr 34.

Fixpoint join (sep : string) (l : list string) : string :=
  match l with
  | [] => EmptyString
  | [x] => x
  | x :: r => x +:+ sep +:+ join sep r
  end.

Definition Z_to_string (n : Z) : string :=
  NilEmpty.string_of_int (Z.to_int n).

(** [JSON.stringify]: [None] is the [undefined] it returns for
    [undefined]; inside an array [undefined] is written [null], inside an
    object the property is left out. *)
Fixpoint stringify (v : jsval) : option string :=
  match v with
  | JUndef => None
  | JNull => Some "null"
  | JBool b => Some (if b then "true" else "false")
  | JNum n => Some (Z_to_string n)
  | JStr s => Some (quote s)
  | JArr l =>
      Some ("[" +:+ join ","
        ((fix elems (l : list jsval) : list string :=
            match l with
            | [] => []
            | x :: r =>
                match stringify x with
                | Some s => s
                | None => "null"
                end :: elems r
            end) l) +:+ "]")
  | JObj fs =>
      Some ("{" +:+ join ","
        ((fix members (fs : list (string * jsval)) : list string :=
            match fs with
            | [] => []
            | (k, x) :: r =>
                match stringify x with
                | Some s => (quote k +:+ ":" +:+ s) :: members r
                | None => members r
                end
            end) fs) +:+ "}")
  end.

(** The text [send] hands to the websocket: [JSON.stringify(trimArray(msg))].
    An array always stringifies, so the fallback is never taken. *)
Definition encode (msg : list jsval) : string :=
  match stringify (JArr (trimArray msg)) with
  | Some s => s
  | None => EmptyString
  end.

(** Message type tags ([WampMessageEnum]). *)
Definition ERROR := 8.
Definition CALL := 48.
Definition CANCEL := 49.
Definition RESULT := 50.
Definition INVOCATION := 68.
Definition YIELD := 70.
Definition AUTHENTICATE := 5.

(** [[WampMessageEnum.CALL, reqId, { receive_progress: true}, uri, args, dict]] *)
Definition call_msg (reqId : Z) (uri : string) (args dict : jsval) : list jsval :=
  [JNum CALL; JNum reqId; JObj [("receive_progress", JBool true)]; JStr uri; args; dict].

(** [send]: the array that is stringified and written to the socket. *)
Definition send (msg : list jsval) : list jsval := trimArray msg.

(** What [JSON.stringify] writes an array element as: [undefined] as [null]. *)
Definition null_for_undef (v : jsval) : jsval :=
  match v with JUndef => JNull | _ => v end.

(* ------------------------------------------------------------------ *)
(** ** Caller: [call(uri, args, dict)]

    After [defer] has allocated [reqId] and sent the CALL, the stream is
    [merge(result$(reqId), throwWhenError$(reqId))] piped through
    [takeWhile(msg => !!msg[2].progress, true)], the [hookObs] that sends a
    CANCEL when unsubscribed while its [complete] flag is unset, then
    [filter(([,,{progress}, args]) => progress || (!!args && args.length > 0))]
    and [map(([,,, ...args]) => args)].  Inputs are the frames routed to this
    [reqId] by the demultiplexers, and the consumer's own release.  RxJS
    delivers synchronously, so a consumer may release while it is handed a
    payload (as [take(n)] and [first()] do): [release_on] says for which
    payloads it does. *)

Inductive call_input : Type :=
| InResult (msg : jsval)
| InError (msg : jsval)
| Release.

Inductive call_outcome : Type :=
| CallPending
| CallCompleted
| CallFailed (e : jsval)
| CallReleased.

Record call_state : Type := mkCallState {
  cs_active : bool;            (* the consumer's subscription is open *)
  cs_complete : bool;          (* the [complete] flag of the hook *)
  cs_sent : list (list jsval);
  cs_delivered : list jsval;   (* payloads handed to the consumer *)
  cs_outcome : call_outcome
}.

Definition cancel_msg (reqId : Z) : list jsval :=
  [JNum CANCEL; JNum reqId; JObj [("mode", JStr "kill")]].

(** [defer]: [const reqId = ++nextReqId; send([CALL, ...]); return of(reqId)]. *)
Definition call_start (reqId : Z) (uri : string) (args dict : jsval) : call_state :=
  mkCallState true false [send (call_msg reqId uri args dict)] [] CallPending.

(** The hook's [onUnsubscribed]: [if (!complete) send([CANCEL, reqId, {mode:'kill'}])]. *)
Definition call_teardown (reqId : Z) (st : call_state) : call_state :=
  mkCallState false (cs_complete st)
    (if cs_complete st then cs_sent st else cs_sent st ++ [send (cancel_msg reqId)])
    (cs_delivered st) CallReleased.

(** [args.length > 0] on a JSON value: only strings and arrays have a length. *)
Definition length_pos (v : jsval) : bool :=
  match v with
  | JArr l => negb (Nat.eqb (List.length l) 0)
  | JStr s => negb (Nat.eqb (String.length s) 0)
  | _ => false
  end.

(** [([,,, ...args]) => args] *)
Definition rest_from3 (msg : jsval) : jsval :=
  match msg with
  | JArr l => JArr (List.skipn 3 l)
  | _ => JArr []
  end.

Definition result_progress (msg : jsval) : jsval :=
  get_prop (get_index msg 2) "progress".

Definition passes_filter (msg : jsval) : bool :=
  truthy (result_progress msg)
  || (truthy (get_index msg 3) && length_pos (get_index msg 3)).

(** The filtered payload reaches the consumer, which may release at once. *)
Definition call_deliver (release_on : jsval -> bool) (reqId : Z) (msg : jsval)
    (st : call_state) : call_state :=
  if passes_filter msg then
    let p := rest_from3 msg in
    let st1 := mkCallState (cs_active st) (cs_complete st) (cs_sent st)
                 (cs_delivered st ++ [p]) (cs_outcome st) in
    if release_on p then call_teardown reqId st1 else st1
  else st.

Definition call_step (release_on : jsval -> bool) (reqId : Z) (st : call_state)
    (i : call_input) : call_state :=
  if negb (cs_active st) then st else
  match i with
  | Release => call_teardown reqId st
  | InError msg =>
      (* [switchMap(([,,, ...e]) => throwError(e))]; the hook's [onError]
         sets [complete], then the unsubscription finds it set *)
      mkCallState false true (cs_sent st) (cs_delivered st) (CallFailed (rest_from3 msg))
  | InResult msg =>
      (* [takeWhile(..., true)] passes [msg] on in both cases *)
      let st1 := call_deliver release_on reqId msg st in
      if truthy (result_progress msg) then st1
      else if cs_active st1 then
        (* the last message: [onComplete] sets [complete] before teardown *)
        mkCallState false true (cs_sent st1) (cs_delivered st1) CallCompleted
      else st1
  end.

Definition run_call (release_on : jsval -> bool) (reqId : Z) (ins : list call_input)
    (st : call_state) : call_state :=
  List.fold_left (call_step release_on reqId) ins st.

(* ------------------------------------------------------------------ *)
(** ** Callee: one [INVOCATION] of a registered function

    [funcRsp$ = func(args, dict).pipe(takeUntil(interrupt$(invocationReqId)
    .pipe(take(1), flatMap(_ => throwError({uri:'wamp.error.cancelled', ...}))))]
    is modelled by what it observes: the handler's notifications and the
    INTERRUPT for this invocation.  The effects are the frames sent and the
    run of the handler's teardown ([ECleanup]).  A subscriber's callback for
    [error]/[complete] runs before the subscription is torn down; a promise's
    [then]/[catch] callback runs after it. *)

Inductive inv_event : Type :=
| HNext (p : jsval)
| HComplete
| HError (e : jsval)
| HInterrupt (mode : jsval).

Inductive effect : Type :=
| ESend (frame : list jsval)
| ECleanup.

Definition cancelled_error : jsval :=
  JObj [("uri", JStr "wamp.error.cancelled");
        ("message", JStr "function call has been cancelled")].

(** [sendError]: [[ERROR, INVOCATION, invocationReqId, {}, error.uri || 'wamp.error',
    [error.message || {error}]]] *)
Definition error_msg (invReqId : Z) (error : jsval) : list jsval :=
  let uri := get_prop error "uri" in
  let message := get_prop error "message" in
  [JNum ERROR; JNum INVOCATION; JNum invReqId; JObj [];
   if truthy uri then uri else JStr "wamp.error";
   JArr [if truthy message then message else JObj [("error", error)]]].

(** [error.uri] throws a TypeError when [error] is [undefined] or [null]:
    then nothing is sent.  In the progressive path the subscriber reports
    the exception and still tears down; in the other path the promise
    returned by [catch] rejects.  Either way no frame leaves. *)
Definition sendError (invReqId : Z) (error : jsval) : list effect :=
  match error with
  | JUndef | JNull => []
  | _ => [ESend (send (error_msg invReqId error))]
  end.

Definition yield_msg (invReqId : Z) (options : jsval) (rsp : jsval) : list jsval :=
  let '(rspArgs, rspDict) := destructure2 rsp in
  [JNum YIELD; JNum invReqId; options; rspArgs; rspDict].

Definition final_yield_msg (invReqId : Z) : list jsval :=
  [JNum YIELD; JNum invReqId; JObj []].

(** [details.receive_progress] set: [funcRsp$.subscribe(next, sendError, complete)]. *)
Fixpoint run_progressive (invReqId : Z) (evs : list inv_event) : list effect :=
  match evs with
  | [] => []
  | HNext p :: r =>
      ESend (send (yield_msg invReqId (JObj [("progress", JBool true)]) p))
        :: run_progressive invReqId r
  | HComplete :: _ => [ESend (send (final_yield_msg invReqId)); ECleanup]
  | HError e :: _ => sendError invReqId e ++ [ECleanup]
  | HInterrupt _ :: _ => sendError invReqId cancelled_error ++ [ECleanup]
  end.

(** Otherwise: [funcRsp$.pipe(startWith([])).toPromise().then(...).catch(sendError)];
    [last] is the value the promise will resolve with. *)
Fixpoint run_final (invReqId : Z) (last : jsval) (evs : list inv_event) : list effect :=
  match evs with
  | [] => []
  | HNext p :: r => run_final invReqId p r
  | HComplete :: _ => [ECleanup; ESend (send (yield_msg invReqId (JObj []) last))]
  | HError e :: _ => ECleanup :: sendError invReqId e
  | HInterrupt _ :: _ => ECleanup :: sendError invReqId cancelled_error
  end.

Definition run_invocation (invReqId : Z) (details : jsval) (evs : list inv_event)
    : list effect :=
  if truthy (get_prop details "receive_progress")
  then run_progressive invReqId evs
  else run_final invReqId (JArr []) evs.

Definition sent_frames (effs : list effect) : list (list jsval) :=
  List.flat_map (fun e => match e with ESend f => [f] | ECleanup => [] end) effs.

(* ------------------------------------------------------------------ *)
(** ** Logon: the [while(true)] loop after HELLO

    Each iteration awaits the first of WELCOME, CHALLENGE or ABORT
    ([merge(...).pipe(take(1)).toPromise()]); the list holds the frames the
    loop successively awaits. *)

Inductive hs_msg : Type :=
| HsWelcome (sessionId : Z) (details : jsval)
| HsChallenge (method : string) (extra : jsval)
| HsAbort (details : jsval) (reason : string).

(** [ChallengeResponse = string | [string, Dict]] *)
Inductive ChallengeResponse : Type :=
| SigString (sig : string)
| SigPair (sig : string) (dict : jsval).

Record LoginAuth : Type := mkLoginAuth {
  authid : string;
  authmethods : list string;
  challenge : string -> jsval -> ChallengeResponse
}.

Inductive logon_result : Type :=
| LogonWelcome
| LogonUnexpectedChallenge          (* [throw new Error('Received unexpected challenge')] *)
| LogonAborted (error : jsval)      (* [throwError(error)] with [[, ...error]] of ABORT *)
| LogonAwaiting.

(** [Array.isArray(sig) ? [AUTHENTICATE, ...sig] : [AUTHENTICATE, sig, {}]] *)
Definition authenticate_msg (sig : ChallengeResponse) : list jsval :=
  match sig with
  | SigPair s d => [JNum AUTHENTICATE; JStr s; d]
  | SigString s => [JNum AUTHENTICATE; JStr s; JObj []]
  end.

Fixpoint logon_loop (auth : option LoginAuth) (inbox : list hs_msg)
    : list (list jsval) * logon_result :=
  match inbox with
  | [] => ([], LogonAwaiting)
  | HsWelcome _ _ :: _ => ([], LogonWelcome)
  | HsAbort details reason :: _ => ([], LogonAborted (JArr [details; JStr reason]))
  | HsChallenge method extra :: rest =>
      match auth with
      | None => ([], LogonUnexpectedChallenge)
      | Some a =>
          let sent := send (authenticate_msg (challenge a method extra)) in
          let '(more, res) := logon_loop auth rest in
          (sent :: more, res)
      end
  end.

(* ------------------------------------------------------------------ *)
(** ** Request ids

    [let nextReqId = initialReqId || Math.floor(Math.random() * 16777216)];
    [random] stands for the value of [Math.floor(Math.random() * 16777216)].
    Every outbound request takes [++nextReqId]: CALL, REGISTER, UNREGISTER,
    PUBLISH, SUBSCRIBE and UNSUBSCRIBE. *)

Definition initial_next_req_id (initialReqId : option Z) (random : Z) : Z :=
  match initialReqId with
  | Some n => if Z.eqb n 0 then random else n
  | None => random
  end.

Inductive request_kind : Type :=
| ReqCall | ReqRegister | ReqUnregister | ReqPublish | ReqSubscribe | ReqUnsubscribe.

(** The counter is a JS number (an IEEE double); the seeds are integers.
    [2^53] bounds the integers a double holds exactly. *)
Definition two53 : Z := 9007199254740992.

(** Rounding an integer to the nearest double, ties to the even
    significand: beyond [2^53] a double of binary exponent [e] is a
    multiple of [2^(e-52)]. *)
Definition js_round (x : Z) : Z :=
  if Z.abs x <=? two53 then x
  else
    let u := 2 ^ (Z.log2 (Z.abs x) - 52) in
    let q := x / u in
    let r := x mod u in
    if 2 * r <? u then q * u
    else if u <? 2 * r then (q + 1) * u
    else if Z.even q then q * u else (q + 1) * u.

(** [++nextReqId] *)
Definition js_incr (n : Z) : Z := js_round (n + 1).

(** The requests a session sends, in order, from the counter [nextReqId]. *)
Fixpoint issue_requests (nextReqId : Z) (ks : list request_kind)
    : list (request_kind * Z) :=
  match ks with
  | [] => []
  | k :: r => (k, js_incr nextReqId) :: issue_requests (js_incr nextReqId) r
  end.

Definition session_req_ids (initialReqId : option Z) (random : Z)
    (ks : list request_kind) : list Z :=
  List.map snd (issue_requests (initial_next_req_id initialReqId random) ks).

(* ------------------------------------------------------------------ *)
(** ** The keyed demultiplexer [divide]

    [divisions] is the object from keys to subscribers (a consumer is named
    by a number); [srcSubscribed] says whether [srcSubscription] is set.
    Every function returns the new state and what it did. *)

Section Divide.

Variable keySelector : jsval -> Z.

Record div_state : Type := mkDivState {
  divisions : gmap Z nat;
  srcSubscribed : bool
}.

Inductive notification : Type :=
| NComplete
| NError (e : jsval).

Inductive div_event : Type :=
| DNext (c : nat) (it : jsval)
| DDropped (it : jsval)                   (* [No observer for key ...] *)
| DNotify (k : Z) (c : nat) (n : notification) (reg : gmap Z nat)
    (* child [k] (consumer [c]) is completed or failed; [reg] is [divisions]
       at that moment *)
| DSrcSubscribe
| DSrcUnsubscribe.

Definition maybeUnsubscribe (st : div_state) : div_state * list div_event :=
  if negb (srcSubscribed st) || negb (bool_decide (divisions st = ∅))
  then (st, [])
  else (mkDivState (divisions st) false, [DSrcUnsubscribe]).

Definition ensureSubscribed (st : div_state) : div_state * list div_event :=
  if srcSubscribed st then (st, [])
  else (mkDivState (divisions st) true, [DSrcSubscribe]).

(** Subscribing to [getDivision(k)]: [divisions[key] = observer; ensureSubscribed()]. *)
Definition div_subscribe (k : Z) (c : nat) (st : div_state) : div_state * list div_event :=
  ensureSubscribed (mkDivState (<[k := c]> (divisions st)) (srcSubscribed st)).

(** The teardown of [getDivision(k)]: [delete divisions[key]; maybeUnsubscribe()]. *)
Definition div_teardown (k : Z) (st : div_state) : div_state * list div_event :=
  maybeUnsubscribe (mkDivState (delete k (divisions st)) (srcSubscribed st)).

(** The [next] handler of the upstream subscription; items only flow while
    the upstream is subscribed. *)
Definition div_next (it : jsval) (st : div_state) : div_state * list div_event :=
  if negb (srcSubscribed st) then (st, []) else
  match divisions st !! keySelector it with
  | None => (st, [DDropped it])
  | Some c => (st, [DNext c it])
  end.

Fixpoint div_feed (its : list jsval) (st : div_state) : div_state * list div_event :=
  match its with
  | [] => (st, [])
  | it :: r =>
      let '(st1, e1) := div_next it st in
      let '(st2, e2) := div_feed r st1 in
      (st2, e1 ++ e2)
  end.

(** The [for (let key in divisions)] loop of [completeAll] over the keys
    present when it starts; a key deleted meanwhile is skipped.  Each child's
    own teardown runs right after its [complete()]/[error(e)]. *)
Fixpoint complete_loop (e : jsval) (ks : list (Z * nat)) (st : div_state)
    : div_state * list div_event :=
  match ks with
  | [] => (st, [])
  | (k, _) :: r =>
      match divisions st !! k with
      | None => complete_loop e r st
      | Some c =>
          let n := match e with JUndef => NComplete | _ => NError e end in
          let '(st1, e1) := div_teardown k st in
          let '(st2, e2) := complete_loop e r st1 in
          (st2, DNotify k c n (divisions st) :: e1 ++ e2)
      end
  end.

(** [completeAll(e?)]: the upstream's [complete] handler passes no argument,
    its [error] handler passes the cause. *)
Definition completeAll (e : jsval) (st : div_state) : div_state * list div_event :=
  let '(st1, e1) := complete_loop e (map_to_list (divisions st)) st in
  let '(st2, e2) := maybeUnsubscribe (mkDivState ∅ (srcSubscribed st1)) in
  (st2, e1 ++ e2).

End Divide.

(** The frames the claims about the callee speak of. *)
Definition cancelled_error_frame (invReqId : Z) : list jsval :=
  [JNum ERROR; JNum INVOCATION; JNum invReqId; JObj [];
   JStr "wamp.error.cancelled"; JArr [JStr "function call has been cancelled"]].

Definition progress_yield (invReqId : Z) (p : jsval) : list jsval :=
  send [JNum YIELD; JNum invReqId; JObj [("progress", JBool true)];
        get_index p 0; get_index p 1].

(** The notification [completeAll(e)] hands each child. *)
Definition notif_of (e : jsval) : notification :=
  match e with JUndef => NComplete | _ => NError e end.

(** Which children were notified, in order, and how. *)
Definition notified (evs : list div_event) : list (Z * nat * notification) :=
  List.flat_map (fun ev => match ev with DNotify k c n _ => [(k, c, n)] | _ => [] end) evs.

(** When a child is notified, [divisions] still maps its key to it. *)
Definition holds_own_entry (ev : div_event) : Prop :=
  match ev with DNotify k c _ reg => reg !! k = Some c | _ => True end.

(** The notifications of [completeAll] when the registry's entries are
    visited in the order [ks] and each child's teardown runs right after it
    is notified: the child [k] sees the registry holding its own entry and
    those of the children not yet visited. *)
Fixpoint notify_trace (n : notification) (ks : list (Z * nat)) : list div_event :=
  match ks with
  | [] => []
  | (k, c) :: r => DNotify k c n (list_to_map ks) :: notify_trace n r
  end.

(* ------------------------------------------------------------------ *)
(** ** Callee: ends of a handler's sequence *)

(** The notifications after which [funcRsp$] is over. *)
Definition terminal (ev : inv_event) : bool :=
  match ev with HNext _ => false | _ => true end.

(** The event that ends the handler's sequence, if any. *)
Fixpoint end_event (evs : list inv_event) : option inv_event :=
  match evs with
  | [] => None
  | HNext _ :: r => end_event r
  | t :: _ => Some t
  end.

(** How many times the handler's teardown ran. *)
Definition cleanups (effs : list effect) : nat :=
  List.length (List.filter (fun e => match e with ECleanup => true | ESend _ => false end) effs).

(* ------------------------------------------------------------------ *)
(** ** Runs of the demultiplexer

    What can happen to one [divide]: a consumer subscribes to [getDivision(k)]
    or tears its subscription down, the upstream emits an item, or the
    upstream ends ([completeAll(e)], called by the upstream subscription, so
    only while it is subscribed).  The upstream notifies asynchronously, never
    from inside [obs$.subscribe]. *)

Inductive div_op : Type :=
| OSubscribe (k : Z) (c : nat)
| OTeardown (k : Z)
| OItem (it : jsval)
| OEnd (e : jsval).

Definition div_apply (keySelector : jsval -> Z) (st : div_state) (op : div_op)
    : div_state * list div_event :=
  match op with
  | OSubscribe k c => div_subscribe k c st
  | OTeardown k => div_teardown k st
  | OItem it => div_next keySelector it st
  | OEnd e => if srcSubscribed st then completeAll e st else (st, [])
  end.

Fixpoint div_run (keySelector : jsval -> Z) (ops : list div_op) (st : div_state)
    : div_state * list div_event :=
  match ops with
  | [] => (st, [])
  | op :: r =>
      let '(st1, e1) := div_apply keySelector st op in
      let '(st2, e2) := div_run keySelector r st1 in
      (st2, e1 ++ e2)
  end.

(** [divisions = {}] and [srcSubscription = null]. *)
Definition div_init : div_state := mkDivState ∅ false.

(** The upstream subscriptions and unsubscriptions in [evs] alternate,
    starting from [subscribed]. *)
Fixpoint src_alternates (subscribed : bool) (evs : list div_event) : bool :=
  match evs with
  | [] => true
  | DSrcSubscribe :: r => negb subscribed && src_alternates true r
  | DSrcUnsubscribe :: r => subscribed && src_alternates false r
  | _ :: r => src_alternates subscribed r
  end.

(* ------------------------------------------------------------------ *)
(** ** [logSubUnsub] of [utils/rxlog.ts]

    The [hookObs] callbacks of one subscription, and the [logger.log] calls
    they make: the header [`${observerId}-${subId}-${msg}-${++seq}`] and the
    further arguments. *)

Inductive hook_event : Type :=
| HkNext (n : jsval)
| HkError (e : jsval)
| HkComplete
| HkUnsubscribed.

Definition log_header (observerId subId : Z) (msg : string) (seq : Z) : string :=
  Z_to_string observerId +:+ "-" +:+ Z_to_string subId +:+ "-" +:+ msg +:+ "-"
  +:+ Z_to_string seq.

(** [seq] is the counter before the call's [++seq]. *)
Fixpoint hook_log (observerId subId : Z) (logNext : bool) (seq : Z)
    (evs : list hook_event) : list (string * list jsval) :=
  match evs with
  | [] => []
  | HkNext n :: r =>
      if logNext
      then (log_header observerId subId "NEXT" (seq + 1), [n])
             :: hook_log observerId subId logNext (seq + 1) r
      else hook_log observerId subId logNext seq r
  | HkError e :: r =>
      (log_header observerId subId "ERROR" (seq + 1), [e])
        :: hook_log observerId subId logNext (seq + 1) r
  | HkComplete :: r =>
      (log_header observerId subId "COMPLETE" (seq + 1), [])
        :: hook_log observerId subId logNext (seq + 1) r
  | HkUnsubscribed :: r =>
      (log_header observerId subId "UNSUBSCRIBED" (seq + 1), [])
        :: hook_log observerId subId logNext (seq + 1) r
  end.

(** The hook maker logs [SUBSCRIBED] with [seq] going from 0 to 1. *)
Definition subscription_log (observerId subId : Z) (logNext : bool)
    (evs : list hook_event) : list (string * list jsval) :=
  (log_header observerId subId "SUBSCRIBED" 1, [])
    :: hook_log observerId subId logNext 1 evs.

(** What the callbacks log, and with which further arguments. *)
Definition hook_message (logNext : bool) (ev : hook_event) : list (string * list jsval) :=
  match ev with
  | HkNext n => if logNext then [("NEXT", [n])] else []
  | HkError e => [("ERROR", [e])]
  | HkComplete => [("COMPLETE", [])]
  | HkUnsubscribed => [("UNSUBSCRIBED", [])]
  end.

(* ------------------------------------------------------------------ *)
(** ** [toWampFunc] and [wampCall] of [wamp/extras.ts], over the wire *)

(** [JSON.parse(JSON.stringify(v))] for a [v] that is not [undefined]
    itself: [undefined] array elements come back as [null], [undefined]
    properties are gone. *)
Fixpoint json_norm (v : jsval) : jsval :=
  match v with
  | JArr l =>
      JArr ((fix elems (l : list jsval) : list jsval :=
               match l with
               | [] => []
               | JUndef :: r => JNull :: elems r
               | x :: r => json_norm x :: elems r
               end) l)
  | JObj fs =>
      JObj ((fix members (fs : list (string * jsval)) : list (string * jsval) :=
               match fs with
               | [] => []
               | (_, JUndef) :: r => members r
               | (k, x) :: r => (k, json_norm x) :: members r
               end) fs)
  | _ => v
  end.

(** [map(it => [[it]])] of [toWampFunc]: the [ArgsAndDict] a wrapped
    function emits for a value [it]. *)
Definition toWampFunc_item (it : jsval) : jsval := JArr [JArr [it]].

(** [map(([ret]) => (ret || [])[0])] of [wampCall]. *)
Definition wampCall_ret (payload : jsval) : jsval :=
  let ret := get_index payload 0 in
  get_index (if truthy ret then ret else JArr []) 0.

(** The router (not code of this repository) answers a YIELD with a RESULT
    for the caller's request that carries the YIELD's args and kwargs. *)
Definition router_result (reqId : Z) (details : jsval) (yield_frame : jsval) : jsval :=
  JArr ([JNum RESULT; JNum reqId; details]
        ++ match yield_frame with JArr l => List.skipn 3 l | _ => [] end).

(** A value sent by a callee's YIELD, read by the caller: the YIELD is
    stringified, parsed by the router, forwarded in a RESULT, stringified
    and parsed again, filtered and mapped by [call] and then by [wampCall]. *)
Definition yield_to_wampCall (invReqId reqId : Z) (options details : jsval)
    (rsp : jsval) : jsval :=
  wampCall_ret (rest_from3 (json_norm (router_result reqId details
    (json_norm (JArr (send (yield_msg invReqId options rsp))))))).

(* ------------------------------------------------------------------ *)
(** ** Subscriber: [subscribe(uri)]

    After [defer] has taken [reqId = ++nextReqId] and sent SUBSCRIBE, the
    stream is [merge(subscribed$(reqId).pipe(map(([,,subsId]) => subsId)),
    throwWhenError$(reqId))] piped through [switchMap(subsId =>
    event$(subsId).pipe(finalize(() => send([UNSUBSCRIBE, ++nextReqId,
    subsId]))))] and [map(([,,,,...argsAndDict]) => argsAndDict)].  Inputs
    are the frames the demultiplexers route to this stream and the
    consumer's release; [sb_nextReqId] is the session's counter. *)

Definition EVENT := 36.










(* ================================================================== *)
(** * Properties *)

(* ------------------------------------------------------------------ *)
(** ** Frame encoding *)

Lemma drop_undef_head (l : list jsval) :
  forall r, drop_undef l <> JUndef :: r.
Proof. induction l as [|x l IH]; [discriminate|]. destruct x; simpl; auto; discriminate. Qed.

Lemma drop_undef_split (l : list jsval) :
  exists n, l = repeat JUndef n ++ drop_undef l.
Proof.
  induction l as [|x l [n Hn]]; [now exists 0%nat|].
  destruct x; try (exists 0%nat; reflexivity).
  exists (S n). simpl. now rewrite <- Hn.
Qed.

(** C7: after [trimArray] the message array has no trailing [undefined], only
    trailing [undefined] entries were removed, and a CALL with neither args
    nor dict goes out as [[48, reqId, options, uri]]. *)
Theorem trimArray_no_trailing_absent (msg : list jsval) :
  (forall pre, trimArray msg <> pre ++ [JUndef])
  /\ (exists n, msg = trimArray msg ++ repeat JUndef n)
  /\ (forall reqId uri,
        trimArray (call_msg reqId uri JUndef JUndef)
        = [JNum CALL; JNum reqId; JObj [("receive_progress", JBool true)]; JStr uri]
      /\ encode (call_msg reqId uri JUndef JUndef)
         = encode [JNum CALL; JNum reqId; JObj [("receive_progress", JBool true)]; JStr uri]).
Proof.
  split; [|split].
  - intros pre H. unfold trimArray in H.
    apply (f_equal (@List.rev jsval)) in H.
    rewrite List.rev_involutive, List.rev_app_distr in H.
    exact (drop_undef_head _ _ H).
  - destruct (drop_undef_split (List.rev msg)) as [n Hn].
    exists n. unfold trimArray.
    rewrite <- (List.rev_involutive msg) at 1. rewrite Hn at 1.
    rewrite List.rev_app_distr. f_equal. apply List.rev_repeat.
  - intros reqId uri. split; reflexivity.
Qed.

Lemma trimArray_app_present (l : list jsval) (x : jsval) :
  x <> JUndef -> trimArray (l ++ [x]) = l ++ [x].
Proof.
  intros Hx. unfold trimArray. rewrite List.rev_app_distr.
  destruct x; try contradiction; simpl; now rewrite List.rev_involutive.
Qed.

Lemma stringify_array_nulls (l : list jsval) :
  stringify (JArr l) = stringify (JArr (List.map null_for_undef l)).
Proof.
  cbn [stringify]. do 4 f_equal.
  induction l as [|a l IH]; [reflexivity|].
  cbn [List.map]. destruct a; simpl; f_equal; exact IH.
Qed.

(** C10: in any outbound frame whose last field is present, an absent
    field before it is not elided: [send] keeps the frame as it is, and
    the wire text is that of the frame with [null] at each absent
    position.  [call(uri, undefined, dict)] with [dict] present is such a
    frame. *)
Theorem call_interior_absent_is_null (pre : list jsval) (x : jsval) :
  x <> JUndef ->
  send (pre ++ [x]) = pre ++ [x]
  /\ encode (pre ++ [x]) = encode (List.map null_for_undef (pre ++ [x])).
Proof.
  intros Hx. split; [now apply trimArray_app_present|].
  unfold encode. rewrite List.map_app. cbn [List.map].
  assert (Hn : null_for_undef x = x) by (destruct x; [contradiction | reflexivity ..]).
  rewrite Hn, !trimArray_app_present by exact Hx.
  rewrite stringify_array_nulls, List.map_app. cbn [List.map]. now rewrite Hn.
Qed.

Lemma call_interior_absent_is_null_witness :
  JObj [("k", JNum 1)] <> JUndef
  /\ send (call_msg 101 "f" JUndef (JObj [("k", JNum 1)]))
     = call_msg 101 "f" JUndef (JObj [("k", JNum 1)])
  /\ encode (call_msg 101 "f" JUndef (JObj [("k", JNum 1)]))
     = encode [JNum CALL; JNum 101; JObj [("receive_progress", JBool true)];
               JStr "f"; JNull; JObj [("k", JNum 1)]].
Proof.
  destruct (call_interior_absent_is_null
              [JNum CALL; JNum 101; JObj [("receive_progress", JBool true)]; JStr "f"; JUndef]
              (JObj [("k", JNum 1)])) as [H1 H2]; [discriminate|].
  split; [discriminate|]. split; [exact H1|]. exact H2.
Defined.

(* ------------------------------------------------------------------ *)
(** ** Logon *)

(** C8: a CHALLENGE without configured authentication fails the logon with
    the unexpected-challenge error; with authentication every CHALLENGE is
    answered by AUTHENTICATE(sig, {}) or AUTHENTICATE(sig, dict) from the
    responder's answer to (method, extra), and the loop then goes on
    awaiting WELCOME, CHALLENGE or ABORT. *)
Theorem logon_challenge_responses :
  (forall method extra rest,
     logon_loop None (HsChallenge method extra :: rest) = ([], LogonUnexpectedChallenge))
  /\ (forall (a : LoginAuth) (chs : list (string * jsval)) (rest : list hs_msg),
       logon_loop (Some a) (List.map (fun '(m, x) => HsChallenge m x) chs ++ rest)
       = (List.map (fun '(m, x) =>
            match challenge a m x with
            | SigString s => send [JNum AUTHENTICATE; JStr s; JObj []]
            | SigPair s d => send [JNum AUTHENTICATE; JStr s; d]
            end) chs ++ fst (logon_loop (Some a) rest),
          snd (logon_loop (Some a) rest))).
Proof.
  split; [reflexivity|].
  intros a chs rest. induction chs as [|[m x] chs IH].
  - simpl. destruct (logon_loop (Some a) rest); reflexivity.
  - simpl. rewrite IH. destruct (challenge a m x); reflexivity.
Qed.

(* ------------------------------------------------------------------ *)
(** ** Request ids *)

Lemma js_incr_exact (n : Z) :
  - two53 - 1 <= n -> n < two53 -> js_incr n = n + 1.
Proof.
  intros Hl Hh. unfold js_incr, js_round.
  rewrite (proj2 (Z.leb_le _ _)); [reflexivity|]. unfold two53 in *. lia.
Qed.

Lemma issue_requests_above (n : Z) (ks : list request_kind) :
  - two53 - 1 <= n -> n + Z.of_nat (List.length ks) <= two53 ->
  Forall (fun i => n < i) (List.map snd (issue_requests n ks)).
Proof.
  revert n. induction ks as [|k ks IH]; intros n Hl Hh; simpl; [constructor|].
  simpl List.length in Hh.
  rewrite js_incr_exact by lia. constructor; [lia|].
  eapply Forall_impl; [apply IH; lia|]. simpl. intros; lia.
Qed.

(** As long as the ids stay within [2^53], the request ids of a session
    strictly increase, so no two requests share one. *)
Lemma session_req_ids_increasing (initialReqId : option Z) (random : Z)
    (ks : list request_kind) :
  - two53 <= initial_next_req_id initialReqId random ->
  initial_next_req_id initialReqId random + Z.of_nat (List.length ks) <= two53 ->
  StronglySorted Z.lt (session_req_ids initialReqId random ks)
  /\ NoDup (session_req_ids initialReqId random ks).
Proof.
  unfold session_req_ids.
  generalize (initial_next_req_id initialReqId random) as n.
  induction ks as [|k ks IH]; intros n Hl Hh; simpl.
  - split; constructor.
  - simpl List.length in Hh. rewrite js_incr_exact by lia.
    destruct (IH (n + 1)) as [Hs Hn]; [lia | lia |].
    pose proof (issue_requests_above (n + 1) ks) as Ha.
    split.
    + apply SSorted_cons; [assumption|]. apply Ha; lia.
    + constructor; [|assumption].
      intros Hin. specialize (Ha ltac:(lia) ltac:(lia)).
      rewrite Forall_forall in Ha. specialize (Ha _ Hin). lia.
Qed.

Lemma session_req_ids_increasing_witness :
  StronglySorted Z.lt (session_req_ids (Some 100) 0 [ReqRegister; ReqCall; ReqCall])
  /\ NoDup (session_req_ids (Some 100) 0 [ReqRegister; ReqCall; ReqCall]).
Proof. apply session_req_ids_increasing; unfold two53; simpl; lia. Defined.

(** C5: a caller-supplied seed of [0] is not used: the session counts from
    the random seed instead, exactly as with no seed. *)
Theorem req_id_seed_zero_ignored (random : Z) (ks : list request_kind) :
  session_req_ids (Some 0) random ks = session_req_ids None random ks
  /\ session_req_ids (Some 0) 5000 [ReqCall; ReqSubscribe] = [5001; 5002].
Proof. split; reflexivity. Qed.

(* ------------------------------------------------------------------ *)
(** ** Caller *)

Lemma run_call_cons (release_on : jsval -> bool) (reqId : Z) (i : call_input)
    (ins : list call_input) (st : call_state) :
  run_call release_on reqId (i :: ins) st
  = run_call release_on reqId ins (call_step release_on reqId st i).
Proof. reflexivity. Qed.

Lemma run_call_app (release_on : jsval -> bool) (reqId : Z)
    (ins1 ins2 : list call_input) (st : call_state) :
  run_call release_on reqId (ins1 ++ ins2) st
  = run_call release_on reqId ins2 (run_call release_on reqId ins1 st).
Proof. unfold run_call. apply fold_left_app. Qed.

Lemma run_call_inactive (release_on : jsval -> bool) (reqId : Z)
    (ins : list call_input) (st : call_state) :
  cs_active st = false -> run_call release_on reqId ins st = st.
Proof.
  revert st. induction ins as [|i ins IH]; intros st Ha; [reflexivity|].
  rewrite run_call_cons. unfold call_step. rewrite Ha. simpl. now apply IH.
Qed.

Lemma run_call_progress (reqId : Z) (ps : list jsval) (st : call_state) :
  cs_active st = true ->
  Forall (fun m => result_progress m = JBool true) ps ->
  run_call (fun _ => false) reqId (List.map InResult ps) st
  = mkCallState true (cs_complete st) (cs_sent st)
      (cs_delivered st ++ List.map rest_from3 ps) (cs_outcome st).
Proof.
  revert st. induction ps as [|m ps IH]; intros st Ha Hp.
  - destruct st; simpl in *. subst. now rewrite app_nil_r.
  - apply Forall_cons in Hp as [Hm Hp].
    simpl List.map. rewrite run_call_cons. unfold call_step. rewrite Ha. simpl negb.
    cbv iota.
    unfold call_deliver, passes_filter. rewrite Hm. simpl.
    rewrite IH by assumption. simpl. now rewrite <- app_assoc.
Qed.

(** C1: with a consumer that keeps its subscription, the payloads of the
    progressive RESULT frames are emitted in order, the terminal RESULT's
    payload is emitted only when its args are present and non-empty, and the
    stream then completes. *)
Theorem call_result_emissions (reqId : Z) (uri : string) (args dict : jsval)
    (ps : list jsval) (t : jsval) (rest : list call_input) :
  Forall (fun m => result_progress m = JBool true) ps ->
  (result_progress t = JUndef \/ result_progress t = JBool false) ->
  (get_index t 3 = JUndef \/ exists l, get_index t 3 = JArr l) ->
  let st := run_call (fun _ => false) reqId
              (List.map InResult ps ++ InResult t :: rest)
              (call_start reqId uri args dict) in
  cs_delivered st
  = List.map rest_from3 ps
    ++ match get_index t 3 with JArr (_ :: _) => [rest_from3 t] | _ => [] end
  /\ cs_outcome st = CallCompleted.
Proof.
  intros Hps Ht Hargs st. subst st.
  rewrite run_call_app, run_call_progress by (reflexivity || assumption).
  rewrite run_call_cons. unfold call_step. simpl negb. cbv iota.
  assert (Htr : truthy (result_progress t) = false)
    by (destruct Ht as [-> | ->]; reflexivity).
  unfold call_deliver, passes_filter. rewrite Htr. simpl orb.
  destruct Hargs as [Ha | [l Ha]]; rewrite Ha.
  - simpl. try rewrite Htr. simpl.
    rewrite run_call_inactive by reflexivity. simpl. now rewrite app_nil_r.
  - destruct l as [|x l]; simpl; try rewrite Htr; simpl;
      rewrite run_call_inactive by reflexivity; simpl; [now rewrite app_nil_r | done].
Qed.
Lemma call_result_emissions_witness :
  let p1 := JArr [JNum RESULT; JNum 101; JObj [("progress", JBool true)]; JArr [JNum 1]] in
  let t := JArr [JNum RESULT; JNum 101; JObj []; JArr [JStr "Done!"]] in
  cs_delivered (run_call (fun _ => false) 101 (List.map InResult [p1] ++ [InResult t])
                  (call_start 101 "thing" JUndef JUndef))
  = [JArr [JArr [JNum 1]]; JArr [JArr [JStr "Done!"]]].
Proof.
  intros p1 t.
  destruct (call_result_emissions 101 "thing" JUndef JUndef [p1] t []) as [H _].
  - repeat constructor.
  - left. reflexivity.
  - right. eexists. reflexivity.
  - exact H.
Defined.

(** C4: a consumer that releases the call stream while it is handed the
    final payload (as [take(1)] or [first()] do) makes the call send a
    CANCEL although the terminal RESULT has already arrived; a release after
    the terminal RESULT has been fully processed sends none. *)
Theorem call_cancel_after_final_result :
  let t := JArr [JNum RESULT; JNum 101; JObj []; JArr [JNum 3]] in
  cs_sent (run_call (fun _ => true) 101 [InResult t]
             (call_start 101 "add" (JArr [JNum 1; JNum 2]) JUndef))
  = [send (call_msg 101 "add" (JArr [JNum 1; JNum 2]) JUndef); send (cancel_msg 101)]
  /\ cs_sent (run_call (fun _ => false) 101 [InResult t; Release]
                (call_start 101 "add" (JArr [JNum 1; JNum 2]) JUndef))
     = [send (call_msg 101 "add" (JArr [JNum 1; JNum 2]) JUndef)].
Proof. split; reflexivity. Qed.

(* ------------------------------------------------------------------ *)
(** ** Callee *)

Lemma run_progressive_nexts (invReqId : Z) (ps : list jsval) (r : list inv_event) :
  run_progressive invReqId (List.map HNext ps ++ r)
  = List.map (fun p => ESend (progress_yield invReqId p)) ps ++ run_progressive invReqId r.
Proof. induction ps as [|p ps IH]; [reflexivity|]. simpl. now rewrite IH. Qed.

Lemma last_cons_default (x : jsval) (ps : list jsval) (a b : jsval) :
  List.last (x :: ps) a = List.last (x :: ps) b.
Proof.
  revert x. induction ps as [|y ps IH]; intros x; [reflexivity|].
  change (List.last (y :: ps) a = List.last (y :: ps) b). apply IH.
Qed.

Lemma run_final_nexts (invReqId : Z) (last : jsval) (ps : list jsval) (r : list inv_event) :
  run_final invReqId last (List.map HNext ps ++ r) = run_final invReqId (List.last ps last) r.
Proof.
  revert last. induction ps as [|p ps IH]; intros last; [reflexivity|].
  simpl. rewrite IH. destruct ps as [|j ps]; [reflexivity|].
  f_equal. apply last_cons_default.
Qed.

Lemma sent_frames_app (e1 e2 : list effect) :
  sent_frames (e1 ++ e2) = sent_frames e1 ++ sent_frames e2.
Proof. unfold sent_frames. apply List.flat_map_app. Qed.

Lemma error_msg_cancelled (invReqId : Z) :
  send (error_msg invReqId cancelled_error) = cancelled_error_frame invReqId.
Proof. reflexivity. Qed.

(** C2: in progressive mode every emitted payload goes out as a progressive
    YIELD and completion as a payload-less YIELD; otherwise a single YIELD
    carries the last payload, or no payload when none was emitted. *)
Theorem invocation_yield_frames (invReqId : Z) (details : jsval) (ps : list jsval) :
  (get_prop details "receive_progress" = JBool true ->
   sent_frames (run_invocation invReqId details (List.map HNext ps ++ [HComplete]))
   = List.map (progress_yield invReqId) ps ++ [send [JNum YIELD; JNum invReqId; JObj []]])
  /\ ((get_prop details "receive_progress" = JUndef
       \/ get_prop details "receive_progress" = JBool false) ->
      sent_frames (run_invocation invReqId details (List.map HNext ps ++ [HComplete]))
      = [match ps with
         | [] => send [JNum YIELD; JNum invReqId; JObj []]
         | _ => let p := List.last ps JUndef in
                send [JNum YIELD; JNum invReqId; JObj []; get_index p 0; get_index p 1]
         end]).
Proof.
  unfold run_invocation. split.
  - intros H. rewrite H. simpl truthy. cbv iota.
    rewrite run_progressive_nexts, sent_frames_app.
    f_equal. induction ps as [|p ps IH]; [reflexivity|]. simpl. now rewrite IH.
  - intros H. assert (Hf : truthy (get_prop details "receive_progress") = false)
      by (destruct H as [-> | ->]; reflexivity).
    rewrite Hf. rewrite run_final_nexts.
    destruct ps as [|p ps]; [reflexivity|].
    rewrite (last_cons_default p ps (JArr []) JUndef). reflexivity.
Qed.

Lemma invocation_yield_frames_witness :
  let prog := JObj [("receive_progress", JBool true)] in
  (get_prop prog "receive_progress" = JBool true
   /\ sent_frames (run_invocation 1000 prog [HNext (JArr [JArr [JNum 2]]); HComplete])
      = [progress_yield 1000 (JArr [JArr [JNum 2]]); send [JNum YIELD; JNum 1000; JObj []]])
  /\ (get_prop (JObj []) "receive_progress" = JUndef
      /\ sent_frames (run_invocation 1000 (JObj []) [HComplete])
         = [send [JNum YIELD; JNum 1000; JObj []]]).
Proof.
  intros prog. split; split.
  - reflexivity.
  - apply (proj1 (invocation_yield_frames 1000 prog [JArr [JArr [JNum 2]]])). reflexivity.
  - reflexivity.
  - apply (proj2 (invocation_yield_frames 1000 (JObj []) [])). left. reflexivity.
Defined.

(** C3 (as amended): an INTERRUPT ends the handler's sequence, whose teardown
    runs, and ERROR(INVOCATION, invReqId, {}, "wamp.error.cancelled",
    ["function call has been cancelled"]) is the invocation's terminal frame;
    in progressive mode that ERROR is sent before the teardown runs, in
    non-progressive mode after it. *)
Theorem invocation_interrupt_cancels (invReqId : Z) (details : jsval)
    (ps : list jsval) (mode : jsval) (rest : list inv_event) :
  (get_prop details "receive_progress" = JBool true ->
   run_invocation invReqId details (List.map HNext ps ++ HInterrupt mode :: rest)
   = List.map (fun p => ESend (progress_yield invReqId p)) ps
     ++ [ESend (cancelled_error_frame invReqId); ECleanup])
  /\ ((get_prop details "receive_progress" = JUndef
       \/ get_prop details "receive_progress" = JBool false) ->
      run_invocation invReqId details (List.map HNext ps ++ HInterrupt mode :: rest)
      = [ECleanup; ESend (cancelled_error_frame invReqId)]).
Proof.
  unfold run_invocation. split.
  - intros H. rewrite H. simpl truthy. cbv iota.
    rewrite run_progressive_nexts. reflexivity.
  - intros H. assert (Hf : truthy (get_prop details "receive_progress") = false)
      by (destruct H as [-> | ->]; reflexivity).
    rewrite Hf, run_final_nexts. reflexivity.
Qed.

Lemma invocation_interrupt_cancels_witness :
  let prog := JObj [("receive_progress", JBool true)] in
  (get_prop prog "receive_progress" = JBool true
   /\ run_invocation 1000 prog [HInterrupt (JStr "kill")]
      = [ESend (cancelled_error_frame 1000); ECleanup])
  /\ (get_prop (JObj []) "receive_progress" = JUndef
      /\ run_invocation 1000 (JObj []) [HNext (JArr []); HInterrupt (JStr "kill")]
         = [ECleanup; ESend (cancelled_error_frame 1000)]).
Proof.
  intros prog. split; split.
  - reflexivity.
  - apply (proj1 (invocation_interrupt_cancels 1000 prog [] (JStr "kill") [])). reflexivity.
  - reflexivity.
  - apply (proj2 (invocation_interrupt_cancels 1000 (JObj []) [JArr []] (JStr "kill") [])).
    left. reflexivity.
Defined.

(** C3 as stated fails: with [receive_progress] set, the ERROR is not sent
    after the handler's cleanup; the cleanup is the last thing that happens. *)
Lemma invocation_interrupt_cleanup_not_first :
  ~ (forall (invReqId : Z) (details : jsval) (ps : list jsval) (mode : jsval),
       exists pre mid,
         run_invocation invReqId details (List.map HNext ps ++ [HInterrupt mode])
         = pre ++ [ECleanup] ++ mid ++ [ESend (cancelled_error_frame invReqId)]).
Proof.
  intros H.
  destruct (H 1000 (JObj [("receive_progress", JBool true)]) [] (JStr "kill"))
    as [pre [mid Hm]].
  change (run_invocation 1000 (JObj [("receive_progress", JBool true)])
            (List.map HNext [] ++ [HInterrupt (JStr "kill")]))
    with ([ESend (cancelled_error_frame 1000)] ++ [ECleanup]) in Hm.
  rewrite !app_assoc in Hm.
  apply app_inj_tail in Hm as [_ Hm]. discriminate.
Qed.

(* ------------------------------------------------------------------ *)
(** ** The demultiplexer *)

Lemma maybeUnsubscribe_divisions (st : div_state) :
  divisions (fst (maybeUnsubscribe st)) = divisions st.
Proof. unfold maybeUnsubscribe. now destruct (_ || _). Qed.

Lemma maybeUnsubscribe_events (st : div_state) :
  notified (snd (maybeUnsubscribe st)) = [] /\ Forall holds_own_entry (snd (maybeUnsubscribe st)).
Proof. unfold maybeUnsubscribe. destruct (_ || _); simpl; repeat constructor. Qed.

Lemma notified_app (e1 e2 : list div_event) :
  notified (e1 ++ e2) = notified e1 ++ notified e2.
Proof. unfold notified. apply List.flat_map_app. Qed.

Lemma complete_loop_spec (e : jsval) (l : list (Z * nat)) (st : div_state) :
  NoDup l.*1 ->
  (forall k c, (k, c) ∈ l -> divisions st !! k = Some c) ->
  notified (snd (complete_loop e l st)) = List.map (fun kc => (kc.1, kc.2, notif_of e)) l
  /\ Forall holds_own_entry (snd (complete_loop e l st)).
Proof.
  revert st. induction l as [|[k c0] l IH]; intros st Hnd Hl; [split; [reflexivity | constructor]|].
  simpl in Hnd. apply NoDup_cons in Hnd as [Hk Hnd].
  assert (Hc0 : divisions st !! k = Some c0) by (apply Hl; left).
  cbn [complete_loop]. rewrite Hc0.
  destruct (div_teardown k st) as [st1 e1] eqn:E1.
  assert (Hd1 : divisions st1 = delete k (divisions st)).
  { unfold div_teardown in E1.
    pose proof (maybeUnsubscribe_divisions (mkDivState (delete k (divisions st)) (srcSubscribed st))) as Hm.
    rewrite E1 in Hm. exact Hm. }
  assert (He1 : notified e1 = [] /\ Forall holds_own_entry e1).
  { unfold div_teardown in E1.
    pose proof (maybeUnsubscribe_events (mkDivState (delete k (divisions st)) (srcSubscribed st))) as Hm.
    rewrite E1 in Hm. exact Hm. }
  destruct (IH st1 Hnd) as [IHn IHf].
  { intros k' c' Hin. rewrite Hd1. rewrite lookup_delete_ne.
    - apply Hl. right. exact Hin.
    - intros Heq. subst k'. apply Hk. apply (list_elem_of_fmap_2 fst l (k, c')). exact Hin. }
  destruct (complete_loop e l st1) as [st2 e2] eqn:E2. simpl in *.
  destruct He1 as [He1n He1f].
  split.
  - rewrite notified_app, He1n, IHn. unfold notif_of. destruct e; reflexivity.
  - constructor; [exact Hc0|]. apply Forall_app. split; assumption.
Qed.

Lemma completeAll_spec (e : jsval) (st : div_state) :
  notified (snd (completeAll e st))
  = List.map (fun kc => (kc.1, kc.2, notif_of e)) (map_to_list (divisions st))
  /\ Forall holds_own_entry (snd (completeAll e st))
  /\ divisions (fst (completeAll e st)) = ∅
  /\ srcSubscribed (fst (completeAll e st)) = false.
Proof.
  destruct (complete_loop_spec e (map_to_list (divisions st)) st) as [Hn Hf].
  - apply NoDup_fst_map_to_list.
  - intros k c Hin. now apply elem_of_map_to_list.
  - unfold completeAll.
    destruct (complete_loop e (map_to_list (divisions st)) st) as [st1 e1]. simpl in *.
    unfold maybeUnsubscribe. simpl.
    rewrite (bool_decide_eq_true_2 (∅ = ∅)) by reflexivity.
    destruct (srcSubscribed st1); simpl.
    all: rewrite ?notified_app, ?Hn; simpl; rewrite ?app_nil_r.
    all: split; [reflexivity|]; split; [|split; reflexivity].
    all: first [ exact Hf | apply Forall_app; split; [exact Hf | repeat constructor] ].
Qed.

Lemma complete_loop_trace (e : jsval) (ks : list (Z * nat)) (st : div_state) :
  NoDup ks.*1 -> divisions st = list_to_map ks -> srcSubscribed st = true -> ks <> [] ->
  complete_loop e ks st
  = (mkDivState ∅ false, notify_trace (notif_of e) ks ++ [DSrcUnsubscribe]).
Proof.
  revert st. induction ks as [|[k c] r IH]; intros st Hnd Hd Hs Hne; [contradiction|].
  cbn [fmap list_fmap fst] in Hnd. apply NoDup_cons in Hnd as [Hk Hnd].
  assert (Hr : list_to_map (M := gmap Z nat) r !! k = None)
    by (apply not_elem_of_list_to_map_1; exact Hk).
  assert (Hdk : divisions st !! k = Some c)
    by (rewrite Hd; cbn [list_to_map foldr fst snd]; apply lookup_insert_eq).
  cbn [complete_loop]. rewrite Hdk.
  assert (Hdel : delete k (divisions st) = list_to_map r).
  { rewrite Hd. cbn [list_to_map foldr fst snd].
    rewrite delete_insert_eq. apply delete_id. exact Hr. }
  unfold div_teardown. rewrite Hdel, Hs.
  destruct r as [|[k' c'] r'].
  - cbn. rewrite Hd. reflexivity.
  - assert (Hm : list_to_map (M := gmap Z nat) ((k', c') :: r') <> ∅)
      by (cbn [list_to_map foldr fst snd]; apply insert_non_empty).
    unfold maybeUnsubscribe. cbn [srcSubscribed divisions].
    rewrite (bool_decide_eq_false_2 _ Hm). cbn [negb orb].
    rewrite (IH (mkDivState (list_to_map ((k', c') :: r')) true)); [|exact Hnd | reflexivity
      | reflexivity | discriminate].
    cbn [notify_trace app]. rewrite Hd. reflexivity.
Qed.

(** C6 (as amended): [completeAll] goes through the registry in the order
    [ks] that [for (let key in divisions)] visits it (any order).  Each
    child is completed when the upstream completes ([e] is [undefined]) and
    fails with [e] otherwise, so an upstream failing with [undefined]
    completes the children.  The registry is not cleared first: the child
    [k] is notified while the registry still holds its entry
    ([notify_trace]); its own teardown then deletes that entry, so the
    next child sees the registry without it, and the teardown of the last
    child releases the upstream: at the end of the loop the registry is
    empty and the upstream unsubscribed.  [divisions = {}] and the final
    [maybeUnsubscribe()] change nothing more. *)
Theorem completeAll_propagates (st : div_state) (e : jsval) (ks : list (Z * nat)) :
  srcSubscribed st = true -> divisions st <> ∅ ->
  NoDup ks.*1 -> list_to_map ks = divisions st ->
  complete_loop e ks st
  = (mkDivState ∅ false, notify_trace (notif_of e) ks ++ [DSrcUnsubscribe])
  /\ completeAll e st
     = (mkDivState ∅ false,
        notify_trace (notif_of e) (map_to_list (divisions st)) ++ [DSrcUnsubscribe])
  /\ (e = JUndef -> notif_of e = NComplete)
  /\ (e <> JUndef -> notif_of e = NError e).
Proof.
  intros Hs Hne Hnd Hks.
  assert (Hnil : forall l : list (Z * nat), list_to_map l = divisions st -> l <> []).
  { intros l Hl ->. apply Hne. rewrite <- Hl. reflexivity. }
  split; [apply complete_loop_trace; auto|].
  split; [|split; [intros ->; reflexivity | intros He; destruct e; [contradiction | reflexivity ..]]].
  unfold completeAll.
  rewrite complete_loop_trace; [| apply NoDup_fst_map_to_list
    | symmetry; apply list_to_map_to_list | exact Hs
    | apply Hnil, list_to_map_to_list].
  cbn [srcSubscribed]. unfold maybeUnsubscribe. cbn [srcSubscribed negb orb].
  now rewrite app_nil_r.
Qed.

Lemma completeAll_propagates_witness :
  let st := mkDivState (<[2 := 7%nat]> (<[5 := 9%nat]> ∅)) true in
  complete_loop (JStr "Websocket disconnected") [(2, 7%nat); (5, 9%nat)] st
  = (mkDivState ∅ false,
     [DNotify 2 7 (NError (JStr "Websocket disconnected")) (<[2 := 7%nat]> (<[5 := 9%nat]> ∅));
      DNotify 5 9 (NError (JStr "Websocket disconnected")) (<[5 := 9%nat]> ∅);
      DSrcUnsubscribe]).
Proof.
  intros st.
  destruct (completeAll_propagates st (JStr "Websocket disconnected")
              [(2, 7%nat); (5, 9%nat)]) as [H _].
  - reflexivity.
  - apply insert_non_empty.
  - repeat constructor; set_solver.
  - reflexivity.
  - rewrite H. reflexivity.
Defined.

(** C6 as stated fails on two counts.  The registry is not cleared before
    the children are notified: the first child notified still sees its own
    entry.  And an upstream failing with the cause [undefined] (its error
    handler is [completeAll] itself) completes the children instead of
    failing them with [undefined]. *)
Lemma completeAll_registry_not_cleared_first :
  ~ (forall (e : jsval) (st : div_state),
       Forall (fun ev => match ev with DNotify _ _ _ reg => reg = ∅ | _ => True end)
         (snd (completeAll e st)))
  /\ ~ (forall (st : div_state),
         notified (snd (completeAll JUndef st))
         = List.map (fun kc => (kc.1, kc.2, NError JUndef)) (map_to_list (divisions st))).
Proof.
  assert (Hev : snd (completeAll JUndef (mkDivState {[1 := 10%nat]} true))
                = [DNotify 1 10 NComplete {[1 := 10%nat]}; DSrcUnsubscribe])
    by reflexivity.
  split.
  - intros H. specialize (H JUndef (mkDivState {[1 := 10%nat]} true)).
    rewrite Hev in H. apply Forall_cons in H as [H _].
    apply (f_equal (lookup 1)) in H.
    rewrite lookup_singleton_eq, lookup_empty in H. discriminate.
  - intros H. specialize (H (mkDivState {[1 := 10%nat]} true)).
    rewrite Hev in H. cbn [divisions] in H.
    rewrite map_to_list_singleton in H. discriminate.
Qed.

Section DivideKeys.

Variable keySelector : jsval -> Z.

Lemma ensureSubscribed_divisions (st : div_state) :
  divisions (fst (ensureSubscribed st)) = divisions st.
Proof. unfold ensureSubscribed. now destruct (srcSubscribed st). Qed.

Lemma div_feed_unregistered (k : Z) (its : list jsval) (st : div_state) :
  Forall (fun it => keySelector it = k) its ->
  divisions st !! k = None ->
  forall ev, In ev (snd (div_feed keySelector its st)) -> exists it, ev = DDropped it.
Proof.
  revert st. induction its as [|it its IH]; intros st Hk Hn ev Hin; [destruct Hin|].
  apply Forall_cons in Hk as [Hit Hk].
  simpl in Hin. unfold div_next in Hin.
  destruct (negb (srcSubscribed st)).
  - simpl in Hin. destruct (div_feed keySelector its st) as [st2 e2] eqn:E.
    simpl in Hin. apply (IH st Hk Hn). rewrite E. exact Hin.
  - rewrite Hit, Hn in Hin.
    destruct (div_feed keySelector its st) as [st2 e2] eqn:E.
    simpl in Hin. destruct Hin as [<- | Hin]; [eauto|].
    apply (IH st Hk Hn). rewrite E. exact Hin.
Qed.

(** C9: a second consumer for a key overwrites the first one's entry; when the
    first one then unsubscribes, its teardown deletes the entry for the key,
    so the key has no consumer and no later item for it reaches anyone. *)
Theorem divide_replaced_consumer_teardown (st : div_state) (k : Z) (c1 c2 : nat)
    (its : list jsval) :
  Forall (fun it => keySelector it = k) its ->
  let st2 := fst (div_subscribe k c2 (fst (div_subscribe k c1 st))) in
  let st3 := fst (div_teardown k st2) in
  divisions st2 !! k = Some c2
  /\ divisions st3 !! k = None
  /\ (forall ev, In ev (snd (div_feed keySelector its st3)) -> forall c it, ev <> DNext c it).
Proof.
  intros Hits st2 st3.
  assert (H2 : divisions st2 = <[k := c2]> (<[k := c1]> (divisions st))).
  { subst st2. unfold div_subscribe. rewrite !ensureSubscribed_divisions. reflexivity. }
  assert (H3 : divisions st3 !! k = None).
  { subst st3. unfold div_teardown. rewrite maybeUnsubscribe_divisions. simpl.
    apply lookup_delete_eq. }
  split; [rewrite H2; apply lookup_insert_eq|]. split; [exact H3|].
  intros ev Hin c it Heq. subst ev.
  destruct (div_feed_unregistered k its st3 Hits H3 _ Hin) as [it' Hd]. discriminate.
Qed.

End DivideKeys.

Lemma divide_replaced_consumer_teardown_witness :
  let reqIdOf := fun it => match get_index it 1 with JNum n => n | _ => 0 end in
  let st := fst (div_teardown 101
                   (fst (div_subscribe 101 2 (fst (div_subscribe 101 1 (mkDivState ∅ false)))))) in
  Forall (fun it => reqIdOf it = 101) [JArr [JNum RESULT; JNum 101; JObj []]]
  /\ divisions st !! 101 = None.
Proof.
  intros reqIdOf st.
  split; [repeat constructor|].
  destruct (divide_replaced_consumer_teardown reqIdOf (mkDivState ∅ false) 101 1 2
              [JArr [JNum RESULT; JNum 101; JObj []]])
    as [_ [H _]]; [repeat constructor | exact H].
Defined.

(* ================================================================== *)
(** * Further properties of the session code *)

(* ------------------------------------------------------------------ *)
(** ** Frame encoding *)

Lemma drop_undef_idem (l : list jsval) : drop_undef (drop_undef l) = drop_undef l.
Proof. induction l as [|x l IH]; [reflexivity|]. destruct x; simpl; auto. Qed.

(** [trimArray] is idempotent: a trimmed frame is left as it is. *)
Theorem trimArray_idempotent (l : list jsval) : trimArray (trimArray l) = trimArray l.
Proof. unfold trimArray. now rewrite List.rev_involutive, drop_undef_idem. Qed.

(** A frame whose last element is present goes out unchanged, however many
    [undefined] entries it has before. *)
Theorem trimArray_last_present (l : list jsval) (x : jsval) :
  x <> JUndef -> trimArray (l ++ [x]) = l ++ [x].
Proof.
  intros Hx. unfold trimArray. rewrite List.rev_app_distr. simpl.
  destruct x; try contradiction; simpl; now rewrite List.rev_involutive.
Qed.

Lemma trimArray_last_present_witness :
  JNum 7 <> JUndef /\ trimArray [JNum 1; JUndef; JNum 7] = [JNum 1; JUndef; JNum 7].
Proof.
  split; [discriminate|].
  apply (trimArray_last_present [JNum 1; JUndef] (JNum 7)). discriminate.
Defined.

(** [call(uri, args)] with args present and no dict (as [wampCall] always
    does, its rest parameter being an array) sends a five-element CALL
    frame: the absent dict is dropped, the args are kept, even when empty. *)
Theorem call_args_without_dict (reqId : Z) (uri : string) (args : jsval) :
  args <> JUndef ->
  send (call_msg reqId uri args JUndef)
  = [JNum CALL; JNum reqId; JObj [("receive_progress", JBool true)]; JStr uri; args]
  /\ encode (call_msg reqId uri args JUndef)
     = encode [JNum CALL; JNum reqId; JObj [("receive_progress", JBool true)]; JStr uri; args].
Proof.
  intros Ha.
  assert (H : trimArray (call_msg reqId uri args JUndef)
              = [JNum CALL; JNum reqId; JObj [("receive_progress", JBool true)]; JStr uri; args])
    by (destruct args; [contradiction | reflexivity ..]).
  assert (H2 : trimArray [JNum CALL; JNum reqId; JObj [("receive_progress", JBool true)];
                          JStr uri; args]
               = [JNum CALL; JNum reqId; JObj [("receive_progress", JBool true)]; JStr uri; args])
    by (destruct args; [contradiction | reflexivity ..]).
  split; [exact H|]. unfold encode. now rewrite H, H2.
Qed.

Lemma call_args_without_dict_witness :
  send (call_msg 101 "add" (JArr []) JUndef)
  = [JNum CALL; JNum 101; JObj [("receive_progress", JBool true)]; JStr "add"; JArr []].
Proof. apply (call_args_without_dict 101 "add" (JArr [])). discriminate. Defined.

(* ------------------------------------------------------------------ *)
(** ** Caller *)

(** While the call stream is open only the CALL has been sent and the
    hook's [complete] flag is unset; at any time at most a CANCEL follows. *)
Definition call_inv (c x : list jsval) (st : call_state) : Prop :=
  (cs_active st = true -> cs_sent st = [c] /\ cs_complete st = false)
  /\ (cs_sent st = [c] \/ cs_sent st = [c; x]).

Lemma call_step_inv (release_on : jsval -> bool) (reqId : Z) (c : list jsval)
    (st : call_state) (i : call_input) :
  call_inv c (send (cancel_msg reqId)) st ->
  call_inv c (send (cancel_msg reqId)) (call_step release_on reqId st i).
Proof.
  intros [Hact Hs]. destruct st as [a cpl sent dl oc]. simpl in *.
  unfold call_step. simpl.
  destruct a; [|split; assumption].
  destruct (Hact eq_refl) as [-> ->].
  unfold call_inv, call_teardown, call_deliver; destruct i as [msg|msg|]; simpl.
  - destruct (passes_filter msg); [destruct (release_on (rest_from3 msg))|];
      destruct (truthy (result_progress msg)); simpl;
      split; try (intros; discriminate); auto.
  - split; [discriminate | auto].
  - split; [discriminate | auto].
Qed.

Lemma run_call_inv (release_on : jsval -> bool) (reqId : Z) (c : list jsval)
    (ins : list call_input) (st : call_state) :
  call_inv c (send (cancel_msg reqId)) st ->
  call_inv c (send (cancel_msg reqId)) (run_call release_on reqId ins st).
Proof.
  revert st. induction ins as [|i ins IH]; intros st H; [exact H|].
  rewrite run_call_cons. apply IH, call_step_inv, H.
Qed.

Lemma call_start_inv (reqId : Z) (uri : string) (args dict : jsval) :
  call_inv (send (call_msg reqId uri args dict)) (send (cancel_msg reqId))
    (call_start reqId uri args dict).
Proof. split; [split; reflexivity | left; reflexivity]. Qed.

(** Whatever arrives and whenever the consumer releases, a call sends its
    CALL frame and at most one CANCEL after it, and nothing else. *)
Theorem call_at_most_one_cancel (release_on : jsval -> bool) (reqId : Z) (uri : string)
    (args dict : jsval) (ins : list call_input) :
  let st := run_call release_on reqId ins (call_start reqId uri args dict) in
  cs_sent st = [send (call_msg reqId uri args dict)]
  \/ cs_sent st = [send (call_msg reqId uri args dict); send (cancel_msg reqId)].
Proof.
  intros st. subst st.
  destruct (run_call_inv release_on reqId _ ins _ (call_start_inv reqId uri args dict))
    as [_ H]. exact H.
Qed.

(** An ERROR for the call's request fails the open stream with the error's
    [[details, error, args, kwargs]] ([([,,, ...e]) => e]); no CANCEL is
    sent, whatever comes after it, a release included. *)
Theorem call_error_fails_without_cancel (release_on : jsval -> bool) (reqId : Z)
    (msg : jsval) (rest : list call_input) (st : call_state) :
  cs_active st = true ->
  let st' := run_call release_on reqId (InError msg :: rest) st in
  cs_outcome st' = CallFailed (rest_from3 msg)
  /\ cs_sent st' = cs_sent st
  /\ cs_delivered st' = cs_delivered st
  /\ cs_active st' = false.
Proof.
  intros Ha st'. subst st'.
  rewrite run_call_cons.
  assert (Hs : call_step release_on reqId st (InError msg)
               = mkCallState false true (cs_sent st) (cs_delivered st)
                   (CallFailed (rest_from3 msg)))
    by (unfold call_step; rewrite Ha; reflexivity).
  rewrite Hs, run_call_inactive by reflexivity. simpl. auto.
Qed.

Lemma call_error_fails_without_cancel_witness :
  let err := JArr [JNum ERROR; JNum CALL; JNum 101; JObj []; JStr "wamp.error.no_such_procedure"] in
  cs_active (call_start 101 "nope" JUndef JUndef) = true
  /\ cs_sent (run_call (fun _ => true) 101 [InError err; Release]
                (call_start 101 "nope" JUndef JUndef))
     = [send (call_msg 101 "nope" JUndef JUndef)].
Proof.
  intros err. split; [reflexivity|].
  destruct (call_error_fails_without_cancel (fun _ => true) 101 err [Release]
              (call_start 101 "nope" JUndef JUndef)) as [_ [H _]];
    [reflexivity | exact H].
Defined.

(** A release while the call stream is still open sends exactly one
    CANCEL, and nothing is sent after it. *)
Theorem call_release_while_open (release_on : jsval -> bool) (reqId : Z) (uri : string)
    (args dict : jsval) (ins rest : list call_input) :
  cs_active (run_call release_on reqId ins (call_start reqId uri args dict)) = true ->
  let st := run_call release_on reqId (ins ++ Release :: rest) (call_start reqId uri args dict) in
  cs_sent st = [send (call_msg reqId uri args dict); send (cancel_msg reqId)]
  /\ cs_outcome st = CallReleased.
Proof.
  intros Ha st. subst st.
  destruct (run_call_inv release_on reqId _ ins _ (call_start_inv reqId uri args dict))
    as [Hact _].
  destruct (Hact Ha) as [Hs Hc].
  rewrite run_call_app, run_call_cons.
  set (st0 := run_call release_on reqId ins (call_start reqId uri args dict)) in *.
  unfold call_step. rewrite Ha. simpl.
  rewrite run_call_inactive by reflexivity.
  unfold call_teardown. simpl. rewrite Hc, Hs. auto.
Qed.

Lemma call_release_while_open_witness :
  let p := JArr [JNum RESULT; JNum 101; JObj [("progress", JBool true)]; JArr [JNum 1]] in
  cs_active (run_call (fun _ => false) 101 [InResult p] (call_start 101 "count" JUndef JUndef)) = true
  /\ cs_sent (run_call (fun _ => false) 101 ([InResult p] ++ Release :: [InResult p])
                (call_start 101 "count" JUndef JUndef))
     = [send (call_msg 101 "count" JUndef JUndef); send (cancel_msg 101)].
Proof.
  intros p. split; [reflexivity|].
  destruct (call_release_while_open (fun _ => false) 101 "count" JUndef JUndef [InResult p]
              [InResult p]) as [H _]; [reflexivity | exact H].
Defined.

(* ------------------------------------------------------------------ *)
(** ** Callee *)

(** Once the handler's sequence has ended (completion, error or
    INTERRUPT), whatever it does afterwards sends nothing and runs no
    further cleanup, in both modes. *)
Theorem invocation_nothing_after_end (invReqId : Z) (details : jsval)
    (pre : list inv_event) (t : inv_event) (post : list inv_event) :
  terminal t = true ->
  run_invocation invReqId details (pre ++ t :: post)
  = run_invocation invReqId details (pre ++ [t]).
Proof.
  intros Ht. unfold run_invocation.
  destruct (truthy (get_prop details "receive_progress")).
  - induction pre as [|e pre IH].
    + destruct t; [discriminate | reflexivity ..].
    + destruct e; simpl; try reflexivity. now rewrite IH.
  - generalize (JArr []) as last. induction pre as [|e pre IH]; intros last.
    + destruct t; [discriminate | reflexivity ..].
    + destruct e; simpl; try reflexivity. apply IH.
Qed.

Lemma invocation_nothing_after_end_witness :
  run_invocation 7 (JObj [("receive_progress", JBool true)])
    ([HNext (JArr [JArr [JNum 1]])] ++ HComplete :: [HNext (JArr [JArr [JNum 2]])])
  = run_invocation 7 (JObj [("receive_progress", JBool true)])
      ([HNext (JArr [JArr [JNum 1]])] ++ [HComplete]).
Proof. apply invocation_nothing_after_end. reflexivity. Defined.

(** The handler's teardown runs exactly once when its sequence has ended,
    and not before. *)
Theorem invocation_cleanup_once (invReqId : Z) (details : jsval) (evs : list inv_event) :
  cleanups (run_invocation invReqId details evs)
  = if existsb terminal evs then 1%nat else 0%nat.
Proof.
  unfold run_invocation.
  destruct (truthy (get_prop details "receive_progress")).
  - induction evs as [|e evs IH]; [reflexivity|].
    destruct e as [p| |e|m]; simpl; [exact IH | reflexivity | destruct e; reflexivity | reflexivity].
  - generalize (JArr []) as last. induction evs as [|e evs IH]; intros last; [reflexivity|].
    destruct e as [p| |e|m]; simpl; [apply IH | reflexivity | destruct e; reflexivity | reflexivity].
Qed.

(** Without [receive_progress] the invocation sends at most one frame, and
    only once the handler's sequence has ended: its YIELD, or its ERROR
    unless the error is [undefined] or [null] (then [sendError] throws and
    nothing is sent). *)
Theorem invocation_final_single_frame (invReqId : Z) (details : jsval)
    (evs : list inv_event) :
  truthy (get_prop details "receive_progress") = false ->
  List.length (sent_frames (run_invocation invReqId details evs))
  = match end_event evs with
    | None | Some (HError JUndef) | Some (HError JNull) => 0%nat
    | Some _ => 1%nat
    end.
Proof.
  intros Hp. unfold run_invocation. rewrite Hp.
  generalize (JArr []) as last. induction evs as [|e evs IH]; intros last; [reflexivity|].
  destruct e as [p| |e|m]; simpl; [apply IH | reflexivity | destruct e; reflexivity | reflexivity].
Qed.

Lemma invocation_final_single_frame_witness :
  List.length (sent_frames (run_invocation 7 (JObj [])
    [HNext (JArr [JArr [JNum 1]]); HNext (JArr [JArr [JNum 2]]); HComplete]))
  = 1%nat
  /\ List.length (sent_frames (run_invocation 7 (JObj [])
       [HNext (JArr [JArr [JNum 1]]); HError JUndef]))
     = 0%nat.
Proof. split; apply (invocation_final_single_frame 7 (JObj [])); reflexivity. Defined.

(** A handler failing with a plain value (a boolean, number, string or
    array, which have neither [uri] nor [message]) makes [sendError] send
    [[ERROR, INVOCATION, invReqId, {}, "wamp.error", [{error: e}]]]. *)
Theorem sendError_plain_value (invReqId : Z) (e : jsval) :
  match e with JBool _ | JNum _ | JStr _ | JArr _ => True | _ => False end ->
  send (error_msg invReqId e)
  = [JNum ERROR; JNum INVOCATION; JNum invReqId; JObj []; JStr "wamp.error";
     JArr [JObj [("error", e)]]].
Proof. intros He. destruct e; try contradiction; reflexivity. Qed.

Lemma sendError_plain_value_witness :
  send (error_msg 7 (JStr "boom"))
  = [JNum ERROR; JNum INVOCATION; JNum 7; JObj []; JStr "wamp.error";
     JArr [JObj [("error", JStr "boom")]]].
Proof. apply (sendError_plain_value 7 (JStr "boom")). exact I. Defined.

(* ------------------------------------------------------------------ *)
(** ** Request ids *)

Lemma issue_requests_ids (n : Z) (ks : list request_kind) :
  - two53 - 1 <= n -> n + Z.of_nat (List.length ks) <= two53 ->
  List.map snd (issue_requests n ks)
  = List.map (fun i => n + 1 + Z.of_nat i) (List.seq 0 (List.length ks)).
Proof.
  revert n. induction ks as [|k ks IH]; intros n Hl Hh; [reflexivity|].
  simpl List.length in Hh.
  cbn [issue_requests List.map List.length List.seq snd].
  rewrite js_incr_exact by lia. rewrite IH by lia.
  f_equal; [lia|].
  rewrite <- List.seq_shift, List.map_map. apply List.map_ext. intros i. lia.
Qed.

(** With a non-zero seed [initialReqId], as long as the ids stay within
    [2^53], the session's requests carry the ids [initialReqId + 1],
    [initialReqId + 2], ... in the order they are made, whatever their
    kind. *)
Theorem session_req_ids_from_seed (n random : Z) (ks : list request_kind) :
  n <> 0 -> - two53 <= n -> n + Z.of_nat (List.length ks) <= two53 ->
  session_req_ids (Some n) random ks
  = List.map (fun i => n + 1 + Z.of_nat i) (List.seq 0 (List.length ks)).
Proof.
  intros Hn Hl Hh. unfold session_req_ids, initial_next_req_id.
  rewrite (proj2 (Z.eqb_neq n 0) Hn). apply issue_requests_ids; lia.
Qed.

Lemma session_req_ids_from_seed_witness :
  session_req_ids (Some 100) 12345 [ReqRegister; ReqCall; ReqUnregister] = [101; 102; 103].
Proof.
  rewrite (session_req_ids_from_seed 100 12345 [ReqRegister; ReqCall; ReqUnregister])
    by (unfold two53; simpl; lia).
  reflexivity.
Defined.

Lemma js_incr_two53 : js_incr two53 = two53.
Proof. reflexivity. Qed.

(** Past [2^53] the counter stops: from a seed of [2^53 - 1] or [2^53]
    every request gets the id [2^53], so requests share ids. *)
Theorem session_req_ids_saturate (n random : Z) (ks : list request_kind) :
  two53 - 1 <= n <= two53 ->
  session_req_ids (Some n) random ks = List.repeat two53 (List.length ks).
Proof.
  intros Hn. unfold session_req_ids, initial_next_req_id.
  rewrite (proj2 (Z.eqb_neq n 0)) by (unfold two53 in Hn; lia).
  assert (H0 : js_incr n = two53).
  { destruct (Z.eq_dec n two53) as [->|Hne]; [apply js_incr_two53|].
    rewrite js_incr_exact; unfold two53 in *; lia. }
  destruct ks as [|k ks]; [reflexivity|]. cbn [issue_requests List.map List.length List.repeat snd].
  rewrite H0. f_equal. clear k. induction ks as [|k ks IH]; [reflexivity|].
  cbn [issue_requests List.map List.length List.repeat snd]. rewrite js_incr_two53. f_equal. exact IH.
Qed.

Lemma session_req_ids_saturate_witness :
  session_req_ids (Some 9007199254740991) 0 [ReqCall; ReqSubscribe; ReqPublish]
  = [9007199254740992; 9007199254740992; 9007199254740992].
Proof. apply (session_req_ids_saturate 9007199254740991 0). unfold two53; lia. Defined.

(* ------------------------------------------------------------------ *)
(** ** The demultiplexer over whole runs *)

Definition div_inv (st : div_state) : Prop :=
  srcSubscribed st = negb (bool_decide (divisions st = ∅)).

Lemma div_apply_inv (keySelector : jsval -> Z) (st : div_state) (op : div_op) :
  div_inv st -> div_inv (fst (div_apply keySelector st op)).
Proof.
  destruct st as [d s]. unfold div_inv. simpl. intros H.
  destruct op as [k c|k|it|e]; simpl.
  - unfold div_subscribe, ensureSubscribed. simpl.
    destruct s; simpl; rewrite bool_decide_eq_false_2 by apply insert_non_empty;
      reflexivity.
  - unfold div_teardown, maybeUnsubscribe. simpl.
    destruct s; simpl.
    + destruct (bool_decide (delete k d = ∅)) eqn:E; simpl; rewrite ?E; reflexivity.
    + destruct (bool_decide (d = ∅)) eqn:E; [|discriminate].
      apply bool_decide_eq_true_1 in E. subst d. rewrite delete_empty.
      rewrite bool_decide_eq_true_2 by reflexivity. reflexivity.
  - unfold div_next. simpl. destruct s; simpl; [|exact H].
    destruct (d !! keySelector it); exact H.
  - destruct s; simpl; [|exact H].
    destruct (completeAll_spec e (mkDivState d true)) as [_ [_ [Hd Hs]]].
    rewrite Hd, Hs, bool_decide_eq_true_2 by reflexivity. reflexivity.
Qed.

Lemma div_run_inv (keySelector : jsval -> Z) (ops : list div_op) (st : div_state) :
  div_inv st -> div_inv (fst (div_run keySelector ops st)).
Proof.
  revert st. induction ops as [|op ops IH]; intros st H; [exact H|].
  simpl. pose proof (div_apply_inv keySelector st op H) as H1.
  destruct (div_apply keySelector st op) as [st1 e1]. simpl in H1.
  specialize (IH st1 H1). destruct (div_run keySelector ops st1). exact IH.
Qed.

(** Whatever consumers do and whatever the upstream emits, the upstream is
    subscribed exactly while some key has a registered consumer. *)
Theorem divide_subscribed_iff_registered (keySelector : jsval -> Z) (ops : list div_op) :
  let st := fst (div_run keySelector ops div_init) in
  srcSubscribed st = true <-> divisions st <> ∅.
Proof.
  intros st.
  assert (H : div_inv st).
  { apply div_run_inv. unfold div_inv. simpl.
    rewrite bool_decide_eq_true_2 by reflexivity. reflexivity. }
  unfold div_inv in H. rewrite H.
  destruct (bool_decide (divisions st = ∅)) eqn:E; simpl.
  - apply bool_decide_eq_true_1 in E. split; [discriminate | contradiction].
  - apply bool_decide_eq_false_1 in E. split; auto.
Qed.

Lemma maybeUnsubscribe_alternates (st : div_state) (rest : list div_event) :
  src_alternates (srcSubscribed st) (snd (maybeUnsubscribe st) ++ rest)
  = src_alternates (srcSubscribed (fst (maybeUnsubscribe st))) rest.
Proof.
  unfold maybeUnsubscribe. destruct (srcSubscribed st) eqn:Hs; simpl; [|now rewrite Hs].
  destruct (bool_decide (divisions st = ∅)); simpl; now rewrite ?Hs.
Qed.

Lemma div_teardown_alternates (k : Z) (st : div_state) (rest : list div_event) :
  src_alternates (srcSubscribed st) (snd (div_teardown k st) ++ rest)
  = src_alternates (srcSubscribed (fst (div_teardown k st))) rest.
Proof. apply (maybeUnsubscribe_alternates (mkDivState (delete k (divisions st)) (srcSubscribed st))). Qed.

Lemma complete_loop_alternates (e : jsval) (l : list (Z * nat)) (st : div_state)
    (rest : list div_event) :
  src_alternates (srcSubscribed st) (snd (complete_loop e l st) ++ rest)
  = src_alternates (srcSubscribed (fst (complete_loop e l st))) rest.
Proof.
  revert st. induction l as [|[k c0] l IH]; intros st; [reflexivity|].
  cbn [complete_loop]. destruct (divisions st !! k) as [c|]; [|apply IH].
  pose proof (div_teardown_alternates k st) as Ht.
  destruct (div_teardown k st) as [st1 e1]. simpl in Ht.
  specialize (IH st1).
  destruct (complete_loop e l st1) as [st2 e2]. simpl in *.
  rewrite <- app_assoc, Ht. apply IH.
Qed.

Lemma div_apply_alternates (keySelector : jsval -> Z) (st : div_state) (op : div_op)
    (rest : list div_event) :
  src_alternates (srcSubscribed st) (snd (div_apply keySelector st op) ++ rest)
  = src_alternates (srcSubscribed (fst (div_apply keySelector st op))) rest.
Proof.
  destruct op as [k c|k|it|e]; simpl.
  - unfold div_subscribe, ensureSubscribed. simpl. destruct (srcSubscribed st); reflexivity.
  - apply div_teardown_alternates.
  - unfold div_next. destruct (srcSubscribed st) eqn:Hs; simpl; [|now rewrite Hs].
    destruct (divisions st !! keySelector it); simpl; now rewrite Hs.
  - destruct (srcSubscribed st) eqn:Hs; [|simpl; now rewrite Hs].
    unfold completeAll.
    pose proof (complete_loop_alternates e (map_to_list (divisions st)) st) as Hl.
    destruct (complete_loop e (map_to_list (divisions st)) st) as [st1 e1]. simpl in Hl.
    pose proof (maybeUnsubscribe_alternates (mkDivState ∅ (srcSubscribed st1))) as Hm.
    destruct (maybeUnsubscribe (mkDivState ∅ (srcSubscribed st1))) as [st2 e2].
    simpl in *. rewrite <- app_assoc, <- Hs, Hl. apply Hm.
Qed.

(** The upstream is never subscribed twice over, nor released when it is
    not subscribed: subscriptions and unsubscriptions of the upstream
    alternate, beginning with a subscription. *)
Theorem divide_upstream_alternates (keySelector : jsval -> Z) (ops : list div_op) :
  src_alternates false (snd (div_run keySelector ops div_init)) = true.
Proof.
  change false with (srcSubscribed div_init). generalize div_init as st.
  induction ops as [|op ops IH]; intros st; [reflexivity|].
  simpl. pose proof (div_apply_alternates keySelector st op) as Ha.
  destruct (div_apply keySelector st op) as [st1 e1]. simpl in Ha.
  specialize (IH st1). destruct (div_run keySelector ops st1) as [st2 e2].
  simpl. rewrite Ha. exact IH.
Qed.

(* ------------------------------------------------------------------ *)
(** ** [logSubUnsub] *)

Lemma hook_log_numbered (observerId subId : Z) (logNext : bool) (n : nat)
    (evs : list hook_event) :
  let msgs := List.flat_map (hook_message logNext) evs in
  hook_log observerId subId logNext (Z.of_nat n) evs
  = List.map (fun '(i, (msg, rest)) => (log_header observerId subId msg (Z.of_nat i), rest))
      (List.combine (List.seq (S n) (List.length msgs)) msgs).
Proof.
  intros msgs. subst msgs. revert n.
  induction evs as [|ev evs IH]; intros n; [reflexivity|].
  assert (Hs : Z.of_nat n + 1 = Z.of_nat (S n)) by lia.
  destruct ev as [x|x| |]; cbn [hook_log List.flat_map hook_message];
    [destruct logNext; [|apply IH] | | |];
    cbn [List.app List.length List.seq List.combine List.map]; rewrite Hs, IH; reflexivity.
Qed.

(** The [logger.log] calls of one subscription are headed
    [observerId-subId-msg-seq] with [seq] numbering them 1, 2, 3, ... in
    order, [SUBSCRIBED] first; with [logNext] false a [next] is not logged
    and takes no number. *)
Theorem subscription_log_numbered (observerId subId : Z) (logNext : bool)
    (evs : list hook_event) :
  let msgs := ("SUBSCRIBED", []) :: List.flat_map (hook_message logNext) evs in
  subscription_log observerId subId logNext evs
  = List.map (fun '(i, (msg, rest)) => (log_header observerId subId msg (Z.of_nat i), rest))
      (List.combine (List.seq 1 (List.length msgs)) msgs).
Proof.
  intros msgs. subst msgs. unfold subscription_log.
  cbn [List.length List.seq List.combine List.map].
  change 1 with (Z.of_nat 1). rewrite hook_log_numbered. reflexivity.
Qed.

(* ------------------------------------------------------------------ *)
(** ** [toWampFunc] and [wampCall] *)

Lemma jsval_ind' (P : jsval -> Prop) (HU : P JUndef) (HN : P JNull)
    (HB : forall b, P (JBool b)) (HZ : forall n, P (JNum n)) (HS : forall s, P (JStr s))
    (HA : forall l, Forall P l -> P (JArr l))
    (HO : forall fs, Forall (fun kv => P (snd kv)) fs -> P (JObj fs)) :
  forall v, P v.
Proof.
  fix IH 1. intros [| | b | n | s | l | fs];
    [exact HU | exact HN | apply HB | apply HZ | apply HS | apply HA | apply HO].
  - revert l. fix IHl 1. intros [|x l]; constructor; [apply IH | apply IHl].
  - revert fs. fix IHf 1. intros [|[k x] fs]; constructor; [apply IH | apply IHf].
Qed.

(** [json_norm] does not change the text [JSON.stringify] makes. *)
Lemma stringify_json_norm (v : jsval) : stringify (json_norm v) = stringify v.
Proof.
  induction v as [| | b | n | s | l Hl | fs Hfs] using jsval_ind'; try reflexivity.
  - cbn [json_norm stringify]. do 4 f_equal.
    induction Hl as [|x l Hx Hl IHl]; [reflexivity|].
    destruct x; cbn [stringify] in *; rewrite ?Hx; f_equal; exact IHl.
  - cbn [json_norm stringify]. do 4 f_equal.
    induction Hfs as [|[k x] fs Hx Hfs IHf]; [reflexivity|]. simpl in Hx.
    destruct x; cbn [stringify] in *; rewrite ?Hx; first [exact IHf | f_equal; exact IHf].
Qed.

Lemma json_norm_JArr (l : list jsval) :
  json_norm (JArr l)
  = JArr (List.map (fun x => match x with JUndef => JNull | _ => json_norm x end) l).
Proof.
  cbn [json_norm]. f_equal.
  induction l as [|x l IH]; [reflexivity|]. destruct x; cbn [List.map]; f_equal; exact IH.
Qed.

Lemma json_norm_idem (v : jsval) : json_norm (json_norm v) = json_norm v.
Proof.
  induction v as [| | b | n | s | l Hl | fs Hfs] using jsval_ind'; try reflexivity.
  - cbn [json_norm]. f_equal.
    induction Hl as [|x l Hx Hl IHl]; [reflexivity|].
    destruct x; simpl; simpl in Hx; rewrite IHl; try rewrite Hx; reflexivity.
  - cbn [json_norm]. f_equal.
    induction Hfs as [|[k x] fs Hx Hfs IHf]; [reflexivity|]. simpl in Hx.
    destruct x; simpl; simpl in Hx; rewrite IHf; try rewrite Hx; reflexivity.
Qed.

(** A value [v] emitted by a function wrapped with [toWampFunc] and sent in
    a YIELD reaches the caller's [wampCall] as [v] itself, after the JSON
    round trips to and from the router; only an [undefined] [v] arrives as
    [null]. *)
Theorem toWampFunc_wampCall_roundtrip (invReqId reqId : Z) (options details v : jsval) :
  yield_to_wampCall invReqId reqId options details (toWampFunc_item v)
  = match v with JUndef => JNull | _ => json_norm v end.
Proof.
  unfold yield_to_wampCall, toWampFunc_item.
  assert (Hy : send (yield_msg invReqId options (JArr [JArr [v]]))
               = [JNum YIELD; JNum invReqId; options; JArr [v]]) by reflexivity.
  rewrite Hy, json_norm_JArr. cbn [List.map].
  rewrite json_norm_JArr. cbn [List.map].
  unfold router_result. cbn [List.skipn List.app].
  rewrite json_norm_JArr. cbn [List.map].
  rewrite json_norm_JArr. cbn [List.map].
  unfold rest_from3, wampCall_ret. cbn [List.skipn get_index nth truthy].
  destruct v as [| | b | n | s | l | fs];
    [reflexivity .. | exact (json_norm_idem (JArr l)) | exact (json_norm_idem (JObj fs))].
Qed.

(* ------------------------------------------------------------------ *)
(** ** Subscriber *)






